(** * LUNA USB stream gateware: packet-boundary detection

    A shallow embedding of [luna/gateware/usb/stream.py]:

    - [USBOutStreamInterface]: the record layout of the OUT stream and its
      [bridge_to] connection list;
    - [USBOutStreamBoundaryDetector]: the synchronous state machine built by
      [elaborate], as a function from the registers before a clock edge and
      the ports sampled at that edge to the registers after it.

    One-bit signals are [bool]; the eight-bit payload signals are [Z] with
    the truncation of an assignment written out. *)

From Stdlib Require Import ZArith Bool List Lia.
From Stdlib Require String.
Import ListNotations.

Set Implicit Arguments.

(* ================================================================== *)
(** ** The OUT stream record and its bridge *)

Module USBOutStreamInterface.

Import String.
Local Open Scope string_scope.

Inductive direction := DIR_FANIN | DIR_FANOUT.

(** A record layout: field name, width, direction. *)
Definition layout := list (string * N * direction).

(** A record object: its name and the fields its layout declares. *)
Record record := Rec { rec_name : string; fields : layout }.

(** A signal reached through a record: owner, field name, width. *)
Inductive value := Field (owner name : string) (width : N).

(** [lhs.eq(rhs)] *)
Inductive assign := Assign (lhs rhs : value).

(** Attribute access on a record either yields the field or raises. *)
Inductive result (A : Type) :=
| Return (a : A)
| AttributeError (owner name : string).
Arguments Return {A} a.
Arguments AttributeError {A} owner name.

Definition bind {A B} (r : result A) (k : A -> result B) : result B :=
  match r with
  | Return a => k a
  | AttributeError o n => AttributeError o n
  end.

Notation "x <- r ;; k" := (bind r (fun x => k))
  (at level 61, r at next level, right associativity).

Fixpoint lookup (name : string) (l : layout) : option N :=
  match l with
  | [] => None
  | (n, w, _) :: rest => if String.eqb n name then Some w else lookup name rest
  end.

(** [Record.__getattr__]: the field of that name, or [AttributeError]. *)
Definition getattr (r : record) (name : string) : result value :=
  match lookup name (fields r) with
  | Some w => Return (Field (rec_name r) name w)
  | None => AttributeError (rec_name r) name
  end.

(** [USBOutStreamInterface.__init__] *)
Definition __init__ (payload_width : N) : record :=
  Rec "stream"
      [ ("valid",   1%N,           DIR_FANOUT);
        ("next",    1%N,           DIR_FANOUT);
        ("payload", payload_width, DIR_FANOUT) ].

(** [USBOutStreamInterface.bridge_to]: the list display is evaluated
    left to right, target attribute before argument attribute. *)
Definition bridge_to (self utmi_rx : record) : result (list assign) :=
  l1 <- getattr self "valid" ;;
  r1 <- getattr utmi_rx "rx_active" ;;
  l2 <- getattr self "next" ;;
  r2 <- getattr utmi_rx "rx_valid" ;;
  l3 <- getattr self "data" ;;
  r3 <- getattr utmi_rx "payload" ;;
  Return [ Assign l1 r1; Assign l2 r2; Assign l3 r3 ].

(** The mapping table of the class docstring:
    rx_active -> valid, rx_data -> payload, rx_valid -> next. *)
Definition documented_bridge (self utmi_rx : record) : result (list assign) :=
  l1 <- getattr self "valid" ;;
  r1 <- getattr utmi_rx "rx_active" ;;
  l2 <- getattr self "next" ;;
  r2 <- getattr utmi_rx "rx_valid" ;;
  l3 <- getattr self "payload" ;;
  r3 <- getattr utmi_rx "rx_data" ;;
  Return [ Assign l1 r1; Assign l2 r2; Assign l3 r3 ].

(** A receive interface carrying the three signals the docstring names. *)
Definition utmi_rx_example : record :=
  Rec "utmi"
      [ ("rx_data",   8%N, DIR_FANIN);
        ("rx_active", 1%N, DIR_FANIN);
        ("rx_valid",  1%N, DIR_FANIN) ].

End USBOutStreamInterface.

(* ================================================================== *)
(** ** The boundary detector *)

Module USBOutStreamBoundaryDetector.

Local Open Scope Z_scope.
Local Open Scope bool_scope.

Inductive fsm_state :=
| WAIT_FOR_FIRST_BYTE
| RECEIVE_AND_TRANSMIT
| OUTPUT_STROBES.

(** Every signal driven from the clocked domain is a register. *)
Record regs := Regs {
  fsm               : fsm_state;
  out_valid         : bool;      (* processed_stream.valid   *)
  out_next          : bool;      (* processed_stream.next    *)
  out_payload       : Z;         (* processed_stream.payload *)
  first             : bool;
  last              : bool;
  complete_out      : bool;
  invalid_out       : bool;
  buffered_byte     : Z;
  is_first_byte     : bool;
  buffered_complete : bool;
  buffered_invalid  : bool
}.

(** The ports sampled at a clock edge. *)
Record ports := Ports {
  in_valid    : bool;            (* unprocessed_stream.valid   *)
  in_next     : bool;            (* unprocessed_stream.next    *)
  in_payload  : Z;               (* unprocessed_stream.payload *)
  complete_in : bool;
  invalid_in  : bool
}.

(** Assignment to a [Signal(8)] keeps the low eight bits. *)
Definition trunc8 (z : Z) : Z := Z.land z 255.

Definition set_fsm v s :=
  Regs v (out_valid s) (out_next s) (out_payload s) (first s) (last s)
       (complete_out s) (invalid_out s) (buffered_byte s) (is_first_byte s)
       (buffered_complete s) (buffered_invalid s).
Definition set_out_valid v s :=
  Regs (fsm s) v (out_next s) (out_payload s) (first s) (last s)
       (complete_out s) (invalid_out s) (buffered_byte s) (is_first_byte s)
       (buffered_complete s) (buffered_invalid s).
Definition set_out_next v s :=
  Regs (fsm s) (out_valid s) v (out_payload s) (first s) (last s)
       (complete_out s) (invalid_out s) (buffered_byte s) (is_first_byte s)
       (buffered_complete s) (buffered_invalid s).
Definition set_out_payload v s :=
  Regs (fsm s) (out_valid s) (out_next s) (trunc8 v) (first s) (last s)
       (complete_out s) (invalid_out s) (buffered_byte s) (is_first_byte s)
       (buffered_complete s) (buffered_invalid s).
Definition set_first v s :=
  Regs (fsm s) (out_valid s) (out_next s) (out_payload s) v (last s)
       (complete_out s) (invalid_out s) (buffered_byte s) (is_first_byte s)
       (buffered_complete s) (buffered_invalid s).
Definition set_last v s :=
  Regs (fsm s) (out_valid s) (out_next s) (out_payload s) (first s) v
       (complete_out s) (invalid_out s) (buffered_byte s) (is_first_byte s)
       (buffered_complete s) (buffered_invalid s).
Definition set_complete_out v s :=
  Regs (fsm s) (out_valid s) (out_next s) (out_payload s) (first s) (last s)
       v (invalid_out s) (buffered_byte s) (is_first_byte s)
       (buffered_complete s) (buffered_invalid s).
Definition set_invalid_out v s :=
  Regs (fsm s) (out_valid s) (out_next s) (out_payload s) (first s) (last s)
       (complete_out s) v (buffered_byte s) (is_first_byte s)
       (buffered_complete s) (buffered_invalid s).
Definition set_buffered_byte v s :=
  Regs (fsm s) (out_valid s) (out_next s) (out_payload s) (first s) (last s)
       (complete_out s) (invalid_out s) (trunc8 v) (is_first_byte s)
       (buffered_complete s) (buffered_invalid s).
Definition set_is_first_byte v s :=
  Regs (fsm s) (out_valid s) (out_next s) (out_payload s) (first s) (last s)
       (complete_out s) (invalid_out s) (buffered_byte s) v
       (buffered_complete s) (buffered_invalid s).
Definition set_buffered_complete v s :=
  Regs (fsm s) (out_valid s) (out_next s) (out_payload s) (first s) (last s)
       (complete_out s) (invalid_out s) (buffered_byte s) (is_first_byte s)
       v (buffered_invalid s).
Definition set_buffered_invalid v s :=
  Regs (fsm s) (out_valid s) (out_next s) (out_payload s) (first s) (last s)
       (complete_out s) (invalid_out s) (buffered_byte s) (is_first_byte s)
       (buffered_complete s) v.

(** [n <~ f v]: one more clocked assignment added to the next-state [n]. *)
Notation "n <~ f v" := (f v n)
  (at level 50, left associativity, f at level 0, v at level 0,
   only parsing).

(** The registers out of reset: the FSM starts in its first state and every
    signal at zero. *)
Definition reset : regs :=
  Regs WAIT_FOR_FIRST_BYTE false false 0 false false false false 0 false
       false false.

(** [elaborate]: the effect of one clock edge.  Right-hand sides read the
    registers [s] before the edge; assignments accumulate on the next state
    in program order, a later one overriding an earlier one; a register
    that is not assigned keeps its value. *)
Definition elaborate (s : regs) (i : ports) : regs :=
  match fsm s with
  | WAIT_FOR_FIRST_BYTE =>
      let n := s <~ set_out_valid false
                 <~ set_first false
                 <~ set_last false
                 <~ set_out_next false
                 <~ set_buffered_complete false
                 <~ set_buffered_invalid false
                 <~ set_complete_out false
                 <~ set_invalid_out false in
      if in_valid i && in_next i then
        n <~ set_buffered_byte (in_payload i)
          <~ set_is_first_byte true
          <~ set_fsm RECEIVE_AND_TRANSMIT
      else n
  | RECEIVE_AND_TRANSMIT =>
      let n := s <~ set_out_valid true
                 <~ set_out_next false in
      let n := n <~ set_buffered_complete (buffered_complete s || complete_in i)
                 <~ set_buffered_invalid (buffered_invalid s || invalid_in i) in
      let n := if in_valid i && in_next i then
                 n <~ set_out_payload (buffered_byte s)
                   <~ set_out_next true
                   <~ set_first (is_first_byte s)
                   <~ set_buffered_byte (in_payload i)
                   <~ set_is_first_byte false
               else n in
      if negb (in_valid i) then
        n <~ set_out_payload (buffered_byte s)
          <~ set_out_next true
          <~ set_first (is_first_byte s)
          <~ set_last true
          <~ set_fsm OUTPUT_STROBES
      else n
  | OUTPUT_STROBES =>
      s <~ set_first false
        <~ set_last false
        <~ set_out_next false
        <~ set_complete_out (buffered_complete s)
        <~ set_invalid_out (buffered_invalid s)
        <~ set_fsm WAIT_FOR_FIRST_BYTE
  end.

(** The registers after each clock edge of a run. *)
Fixpoint run (s : regs) (ins : list ports) : list regs :=
  match ins with
  | [] => []
  | i :: rest => let s' := elaborate s i in s' :: run s' rest
  end.

(** The registers after the whole run. *)
Definition after (s : regs) (ins : list ports) : regs :=
  fold_left elaborate ins s.

(** *** What an observer of the ports sees *)

(** One element of the processed stream with its boundary flags. *)
Record element := Element { payload : Z; is_first : bool; is_last : bool }.

(** The elements presented on the processed stream during a trace: one per
    clock edge after which [processed_stream.next] is high. *)
Definition emitted (tr : list regs) : list element :=
  map (fun s => Element (out_payload s) (first s) (last s))
      (filter out_next tr).

(** The two status outputs after each clock edge. *)
Definition strobes (tr : list regs) : list (bool * bool) :=
  map (fun s => (complete_out s, invalid_out s)) tr.

(** *** What the source of the unprocessed stream does *)

(** The condition [in_stream.valid & in_stream.next]. *)
Definition advancing (i : ports) : bool := in_valid i && in_next i.

(** The payload elements a sequence of port samples carries, one per
    advance pulse, as an eight-bit signal holds them. *)
Definition elements (ins : list ports) : list Z :=
  map (fun i => trunc8 (in_payload i)) (filter advancing ins).

(** The samples that follow the first advance pulse. *)
Fixpoint after_first_advance (ins : list ports) : list ports :=
  match ins with
  | [] => []
  | i :: rest => if advancing i then rest else after_first_advance rest
  end.

(** Elements passed on while the packet is still open: the first one is
    flagged [first], none is flagged [last]. *)
Fixpoint forwarded (is_first : bool) (ps : list Z) : list element :=
  match ps with
  | [] => []
  | p :: rest => Element p is_first false :: forwarded false rest
  end.

(** A whole packet with its boundaries: [first] on the head only, [last] on
    the final element only. *)
Fixpoint framed (is_first : bool) (ps : list Z) : list element :=
  match ps with
  | [] => []
  | p :: rest =>
      Element p is_first (match rest with [] => true | _ => false end)
      :: framed false rest
  end.

(** The input keeps [valid] high over a sequence of samples. *)
Definition held_active (ins : list ports) : Prop :=
  Forall (fun i => in_valid i = true) ins.

(** No sample of the sequence carries an advance. *)
Definition no_advance (ins : list ports) : Prop :=
  Forall (fun i => advancing i = false) ins.

(** What the accumulators hold when a packet closes: a status input counts
    on the clock edges taken in [RECEIVE_AND_TRANSMIT], that is after the
    edge that captured the first byte, up to and including the edge [fin]
    that sees [valid] low. *)
Definition sticky_complete (ins : list ports) (fin : ports) : bool :=
  existsb complete_in (after_first_advance ins ++ [fin]).
Definition sticky_invalid (ins : list ports) (fin : ports) : bool :=
  existsb invalid_in (after_first_advance ins ++ [fin]).

(** *** State predicates *)

(** Idle with every output low. *)
Definition quiet (s : regs) : Prop :=
  fsm s = WAIT_FOR_FIRST_BYTE /\ out_valid s = false /\ out_next s = false
  /\ first s = false /\ last s = false
  /\ complete_out s = false /\ invalid_out s = false.

(** In the middle of a packet: no [last] yet, no strobe, and a buffered
    byte that fits its register. *)
Definition streaming (s : regs) : Prop :=
  fsm s = RECEIVE_AND_TRANSMIT /\ last s = false
  /\ complete_out s = false /\ invalid_out s = false
  /\ trunc8 (buffered_byte s) = buffered_byte s.

(** A status output is high. *)
Definition strobing (s : regs) : bool := complete_out s || invalid_out s.

(** What holds of the outputs in each state of the machine, in every run
    out of reset. *)
Definition consistent (s : regs) : Prop :=
  match fsm s with
  | WAIT_FOR_FIRST_BYTE => out_next s = false
  | RECEIVE_AND_TRANSMIT => strobing s = false
  | OUTPUT_STROBES =>
      out_next s = true /\ last s = true /\ strobing s = false
  end.

(** Is this the only element so far? *)
Definition alone (es : list Z) : bool :=
  match es with [] => true | _ :: _ => false end.

(** The registers after the edge that sends the last element [e] of a
    packet ([f]: it is also the first; [sc], [si]: the accumulators), and
    after the edge that follows it. *)
Definition closing_regs (e : Z) (f sc si : bool) : regs :=
  Regs OUTPUT_STROBES true true e f true false false e f sc si.
Definition drained_regs (e : Z) (f sc si : bool) : regs :=
  Regs WAIT_FOR_FIRST_BYTE true false e false false sc si e f sc si.

(** *** Sample port values *)

(** One payload byte with an advance, no status input. *)
Definition data (p : Z) : ports := Ports true true p false false.
(** One payload byte with an advance and the given status inputs. *)
Definition data_with (p : Z) (c i : bool) : ports := Ports true true p c i.
(** Input active, no advance. *)
Definition gap : ports := Ports true false 0 false false.
(** Input not active. *)
Definition inactive : ports := Ports false false 0 false false.
(** Input not active, with the given status inputs. *)
Definition inactive_with (c i : bool) : ports := Ports false false 0 c i.

(** A three-element packet with a pause after its first element, both
    status inputs raised at some point after the first edge. *)
Definition sample_packet : list ports :=
  [data 0x11; gap; data_with 0x22 true false; data_with 0x33 false true].

(** A second packet, with no status input raised. *)
Definition second_packet : list ports := [data 0x44; data 0x55].

(** *** Packet numbering, for statements about which packet an output
    belongs to *)

(** A clock edge begins a packet when the idle machine sees an advance. *)
Definition begins_packet (s : regs) (i : ports) : bool :=
  match fsm s with
  | WAIT_FOR_FIRST_BYTE => advancing i
  | _ => false
  end.

(** The trace with, beside each state, the number of packets begun so far
    (the packet the outputs of that state belong to). *)
Fixpoint run_numbered (k : nat) (s : regs) (ins : list ports)
  : list (nat * regs) :=
  match ins with
  | [] => []
  | i :: rest =>
      let k' := if begins_packet s i then S k else k in
      let s' := elaborate s i in
      (k', s') :: run_numbered k' s' rest
  end.

(** The number of packets begun by the end of a run. *)
Fixpoint packets (k : nat) (s : regs) (ins : list ports) : nat :=
  match ins with
  | [] => k
  | i :: rest =>
      packets (if begins_packet s i then S k else k) (elaborate s i) rest
  end.

End USBOutStreamBoundaryDetector.

(* ================================================================== *)
(** ** The IN stream bridge *)

Module USBInStreamInterface.

Import String USBOutStreamInterface.
Local Open Scope string_scope.

(** [USBInStreamInterface.bridge_to].  The stream itself is a
    [StreamInterface], declared elsewhere: it is taken as any record.  Each
    connection evaluates its target attribute before its argument. *)
Definition bridge_to (self utmi_tx : record) : result (list assign) :=
  l1 <- getattr utmi_tx "valid" ;;
  r1 <- getattr self "valid" ;;
  l2 <- getattr utmi_tx "data" ;;
  r2 <- getattr self "payload" ;;
  l3 <- getattr self "ready" ;;
  r3 <- getattr utmi_tx "ready" ;;
  Return [ Assign l1 r1; Assign l2 r2; Assign l3 r3 ].

End USBInStreamInterface.

(* ================================================================== *)
(** ** Vocabulary for arbitrary runs of the boundary detector *)

Module BoundaryDetectorRuns.

Import USBOutStreamBoundaryDetector.
Local Open Scope Z_scope.
Local Open Scope bool_scope.

(** [a] is [b] with some elements left out, order kept. *)
Inductive subsequence {A : Type} : list A -> list A -> Prop :=
| sub_nil (b : list A) : subsequence [] b
| sub_take (x : A) (a b : list A) :
    subsequence a b -> subsequence (x :: a) (x :: b)
| sub_skip (x : A) (a b : list A) :
    subsequence a b -> subsequence a (x :: b).

(** The same sample with both status inputs low. *)
Definition without_status (i : ports) : ports :=
  Ports (in_valid i) (in_next i) (in_payload i) false false.

(** The same sample with the payload lines at zero. *)
Definition without_payload (i : ports) : ports :=
  Ports (in_valid i) (in_next i) 0 (complete_in i) (invalid_in i).

(** Every register but the status accumulators and the status outputs. *)
Definition data_view (s : regs) :=
  (fsm s, out_valid s, out_next s, out_payload s, first s, last s,
   buffered_byte s, is_first_byte s).

(** Every register but the two that hold payload. *)
Definition control_view (s : regs) :=
  (fsm s, out_valid s, out_next s, first s, last s,
   complete_out s, invalid_out s,
   is_first_byte s, buffered_complete s, buffered_invalid s).

(** How the outputs relate to one another and to the state. *)
Definition well_presented (s : regs) : Prop :=
  (out_next s = true -> out_valid s = true)
  /\ (first s = true -> out_valid s = true)
  /\ (last s = true <-> fsm s = OUTPUT_STROBES)
  /\ (fsm s = OUTPUT_STROBES -> out_next s = true /\ out_valid s = true)
  /\ (strobing s = true ->
      fsm s = WAIT_FOR_FIRST_BYTE /\ out_valid s = true /\ out_next s = false).


(** A packet as the detector is fed it: the samples taken while the input is
    active, the sample that sees it inactive, and the sample of the edge
    after that one. *)
Record packet := Packet {
  samples     : list ports;
  closing     : ports;
  strobe_edge : ports
}.

Definition fed (p : packet) : list ports :=
  samples p ++ [closing p; strobe_edge p].

Definition well_formed (p : packet) : Prop :=
  held_active (samples p) /\ elements (samples p) <> []
  /\ in_valid (closing p) = false.

(** What a packet looks like on the processed stream and on the status
    outputs. *)
Definition framed_packet (p : packet) : list element :=
  framed true (elements (samples p)).

Definition strobes_of (p : packet) : list (bool * bool) :=
  repeat (false, false) (length (samples p) + 1)
  ++ [(sticky_complete (samples p) (closing p),
       sticky_invalid (samples p) (closing p))].

End BoundaryDetectorRuns.

(* ================================================================== *)
(** ** The bridge of the OUT stream *)

Section Bridge.

Import String USBOutStreamInterface.
Local Open Scope string_scope.

(** The stream record declares [valid], [next] and [payload], nothing
    called [data]. *)
Lemma stream_has_no_data (w : N) :
  getattr (__init__ w) "data" = AttributeError "stream" "data".
Proof. reflexivity. Qed.

(** Whatever receive interface it is given, [bridge_to] returns no
    connection list. *)
Lemma bridge_to_never_returns (w : N) (utmi_rx : record) (l : list assign) :
  bridge_to (__init__ w) utmi_rx <> Return l.
Proof.
  unfold bridge_to.
  change (getattr (__init__ w) "valid")
    with (Return (A := value) (Field "stream" "valid" 1)).
  change (getattr (__init__ w) "next")
    with (Return (A := value) (Field "stream" "next" 1)).
  rewrite stream_has_no_data. cbn [bind].
  destruct (getattr utmi_rx "rx_active"); cbn [bind]; [|discriminate].
  destruct (getattr utmi_rx "rx_valid"); cbn [bind]; discriminate.
Qed.

End Bridge.

(* ================================================================== *)
(** ** The boundary detector: one clock edge *)

Import USBOutStreamBoundaryDetector.
Local Open Scope Z_scope.
Local Open Scope bool_scope.

Lemma trunc8_range (z : Z) : 0 <= trunc8 z < 256.
Proof.
  unfold trunc8. change 255 with (Z.ones 8). rewrite Z.land_ones by lia.
  change (2 ^ 8) with 256. apply Z.mod_pos_bound. lia.
Qed.

Lemma trunc8_small (z : Z) : 0 <= z < 256 -> trunc8 z = z.
Proof.
  intros H. unfold trunc8. change 255 with (Z.ones 8).
  rewrite Z.land_ones by lia. apply Z.mod_small. exact H.
Qed.

Lemma trunc8_idem (z : Z) : trunc8 (trunc8 z) = trunc8 z.
Proof. apply trunc8_small, trunc8_range. Qed.

(** Idle, no advance: every output and both accumulators are cleared and
    the machine stays idle. *)
Lemma idle_stays (s : regs) (i : ports) :
  fsm s = WAIT_FOR_FIRST_BYTE -> advancing i = false ->
  elaborate s i =
    Regs WAIT_FOR_FIRST_BYTE false false (out_payload s) false false false
         false (buffered_byte s) (is_first_byte s) false false.
Proof.
  destruct s; cbn; intros -> Hi. unfold elaborate, advancing in *; cbn.
  now rewrite Hi.
Qed.

(** Idle, advance: the payload is captured and flagged as the first. *)
Lemma idle_captures (s : regs) (i : ports) :
  fsm s = WAIT_FOR_FIRST_BYTE -> advancing i = true ->
  elaborate s i =
    Regs RECEIVE_AND_TRANSMIT false false (out_payload s) false false false
         false (trunc8 (in_payload i)) true false false.
Proof.
  destruct s; cbn; intros -> Hi. unfold elaborate, advancing in *; cbn.
  now rewrite Hi.
Qed.

(** Streaming, input active and advancing: the buffered byte goes out and the
    new one takes its place. *)
Lemma streaming_advances (s : regs) (i : ports) :
  fsm s = RECEIVE_AND_TRANSMIT -> in_valid i = true -> in_next i = true ->
  elaborate s i =
    Regs RECEIVE_AND_TRANSMIT true true (trunc8 (buffered_byte s))
         (is_first_byte s) (last s) (complete_out s) (invalid_out s)
         (trunc8 (in_payload i)) false
         (buffered_complete s || complete_in i)
         (buffered_invalid s || invalid_in i).
Proof.
  destruct s; cbn; intros -> Hv Hn. unfold elaborate; cbn.
  now rewrite Hv, Hn.
Qed.

(** Streaming, input active without an advance: nothing goes out. *)
Lemma streaming_waits (s : regs) (i : ports) :
  fsm s = RECEIVE_AND_TRANSMIT -> in_valid i = true -> in_next i = false ->
  elaborate s i =
    Regs RECEIVE_AND_TRANSMIT true false (out_payload s) (first s) (last s)
         (complete_out s) (invalid_out s) (buffered_byte s) (is_first_byte s)
         (buffered_complete s || complete_in i)
         (buffered_invalid s || invalid_in i).
Proof.
  destruct s; cbn; intros -> Hv Hn. unfold elaborate; cbn.
  now rewrite Hv, Hn.
Qed.

(** Streaming, input no longer active: the buffered byte goes out as the
    last one. *)
Lemma streaming_closes (s : regs) (i : ports) :
  fsm s = RECEIVE_AND_TRANSMIT -> in_valid i = false ->
  elaborate s i =
    Regs OUTPUT_STROBES true true (trunc8 (buffered_byte s))
         (is_first_byte s) true (complete_out s) (invalid_out s)
         (buffered_byte s) (is_first_byte s)
         (buffered_complete s || complete_in i)
         (buffered_invalid s || invalid_in i).
Proof.
  destruct s; cbn; intros -> Hv. unfold elaborate; cbn.
  now rewrite Hv.
Qed.

(** The strobe state ignores its inputs: it presents the accumulators and
    returns to idle. *)
Lemma strobes_drain (s : regs) (i : ports) :
  fsm s = OUTPUT_STROBES ->
  elaborate s i =
    Regs WAIT_FOR_FIRST_BYTE (out_valid s) false (out_payload s) false false
         (buffered_complete s) (buffered_invalid s)
         (buffered_byte s) (is_first_byte s)
         (buffered_complete s) (buffered_invalid s).
Proof.
  destruct s; cbn; intros ->. reflexivity.
Qed.

(** An advance that arrives on the strobe edge is not captured: that edge
    does the same whatever the ports carry. *)
Lemma strobe_edge_ignores_ports (s : regs) (i j : ports) :
  fsm s = OUTPUT_STROBES -> elaborate s i = elaborate s j.
Proof. intros Hs. now rewrite !strobes_drain. Qed.

(** ** Runs *)

Lemma run_app (s : regs) (a b : list ports) :
  run s (a ++ b) = run s a ++ run (after s a) b.
Proof.
  revert s. induction a as [|i a IH]; intros s; cbn; [reflexivity|].
  now rewrite IH.
Qed.

Lemma after_app (s : regs) (a b : list ports) :
  after s (a ++ b) = after (after s a) b.
Proof. apply fold_left_app. Qed.

Lemma run_length (s : regs) (ins : list ports) :
  length (run s ins) = length ins.
Proof.
  revert s. induction ins as [|i ins IH]; intros s; cbn; [reflexivity|].
  now rewrite IH.
Qed.

Lemma emitted_app (a b : list regs) : emitted (a ++ b) = emitted a ++ emitted b.
Proof. unfold emitted. now rewrite filter_app, map_app. Qed.

Lemma strobes_app (a b : list regs) : strobes (a ++ b) = strobes a ++ strobes b.
Proof. apply map_app. Qed.

Lemma elements_app (a b : list ports) :
  elements (a ++ b) = elements a ++ elements b.
Proof. unfold elements. now rewrite filter_app, map_app. Qed.

(** ** Boundary flags on lists *)

Lemma forwarded_snoc (f : bool) (es : list Z) (e : Z) :
  forwarded f (es ++ [e]) = forwarded f es ++ [Element e (f && alone es) false].
Proof.
  revert f. induction es as [|x es IH]; intros f; cbn.
  - now rewrite andb_true_r.
  - rewrite IH, andb_false_r. reflexivity.
Qed.

Lemma framed_snoc (f : bool) (es : list Z) (e : Z) :
  framed f (es ++ [e]) = forwarded f es ++ [Element e (f && alone es) true].
Proof.
  revert f. induction es as [|x es IH]; intros f; cbn.
  - now rewrite andb_true_r.
  - rewrite IH, andb_false_r. destruct es; reflexivity.
Qed.

Lemma forwarded_length (f : bool) (es : list Z) :
  length (forwarded f es) = length es.
Proof. revert f. induction es; intros f; cbn; [|rewrite IHes]; reflexivity. Qed.

Lemma framed_length (f : bool) (es : list Z) :
  length (framed f es) = length es.
Proof. revert f. induction es; intros f; cbn; [|rewrite IHes]; reflexivity. Qed.

(** The [k]-th element of a framed packet: its payload, [first] exactly at
    the head, [last] exactly at the end. *)
Lemma framed_nth (es : list Z) (k : nat) (f : bool) :
  (k < length es)%nat ->
  nth_error (framed f es) k =
    Some (Element (nth k es 0) (f && (k =? 0)%nat) (S k =? length es)%nat).
Proof.
  revert k f. induction es as [|x es IH]; intros k f Hk; cbn in Hk; [lia|].
  destruct k as [|k]; cbn [framed nth_error nth length].
  - rewrite andb_true_r. destruct es; reflexivity.
  - rewrite IH by lia. rewrite andb_false_r. reflexivity.
Qed.

(** ** The phases of a packet *)

(** While idle with no advance the machine is quiet after every edge. *)
Lemma idle_run (ins : list ports) (s : regs) :
  fsm s = WAIT_FOR_FIRST_BYTE -> no_advance ins ->
  Forall quiet (run s ins) /\ fsm (after s ins) = WAIT_FOR_FIRST_BYTE.
Proof.
  revert s. induction ins as [|i ins IH]; intros s Hs Hq; cbn.
  - split; [constructor | exact Hs].
  - inversion Hq as [|? ? Hi Hq']; subst.
    rewrite (idle_stays s i Hs Hi).
    destruct (IH (Regs WAIT_FOR_FIRST_BYTE false false (out_payload s) false
                       false false false (buffered_byte s) (is_first_byte s)
                       false false) eq_refl Hq') as [Htr Hfin].
    split; [constructor; [repeat split | exact Htr] | exact Hfin].
Qed.

Lemma quiet_emits_nothing (tr : list regs) :
  Forall quiet tr -> emitted tr = [] /\ strobes tr = repeat (false, false) (length tr)
                     /\ map last tr = repeat false (length tr).
Proof.
  induction 1 as [|s tr Hs _ IH]; [repeat split|].
  destruct Hs as (_ & _ & Hn & _ & Hl & Hc & Hi).
  destruct IH as (He & Hst & Hla).
  unfold emitted, strobes in *. cbn. rewrite Hn, Hc, Hi, Hl. cbn.
  rewrite He, Hst, Hla. repeat split.
Qed.

Lemma emitted_cons (s : regs) (tr : list regs) :
  emitted (s :: tr) =
    if out_next s then Element (out_payload s) (first s) (last s) :: emitted tr
    else emitted tr.
Proof. unfold emitted. cbn. now destruct (out_next s). Qed.

Lemma elements_cons (i : ports) (ins : list ports) :
  elements (i :: ins) =
    if advancing i then trunc8 (in_payload i) :: elements ins
    else elements ins.
Proof. unfold elements. cbn. now destruct (advancing i). Qed.

(** Payloads that fit the eight-bit port are carried unchanged. *)
Lemma elements_in_range (ins : list ports) :
  Forall (fun i => 0 <= in_payload i < 256) ins ->
  elements ins = map in_payload (filter advancing ins).
Proof.
  induction 1 as [|i ins Hi _ IH]; [reflexivity|].
  rewrite elements_cons. cbn [filter].
  destruct (advancing i); [cbn [map]; now rewrite IH, trunc8_small | exact IH].
Qed.

(** The streaming phase: with the input held active, what has gone out
    followed by what is buffered is what has come in. *)
Lemma streaming_run (ins : list ports) (s : regs) :
  streaming s -> held_active ins ->
  forwarded (is_first_byte s) (buffered_byte s :: elements ins)
    = emitted (run s ins)
      ++ [Element (buffered_byte (after s ins)) (is_first_byte (after s ins))
                  false]
  /\ streaming (after s ins)
  /\ buffered_complete (after s ins)
     = buffered_complete s || existsb complete_in ins
  /\ buffered_invalid (after s ins)
     = buffered_invalid s || existsb invalid_in ins
  /\ strobes (run s ins) = repeat (false, false) (length ins)
  /\ map last (run s ins) = repeat false (length ins).
Proof.
  revert s. induction ins as [|i ins IH]; intros s Hs Ha.
  - cbn. rewrite !orb_false_r. repeat (split; [exact Hs || reflexivity|]).
    reflexivity.
  - inversion Ha as [|? ? Hv Ha']; subst.
    destruct Hs as (Hf & Hl & Hc & Hi & Hb).
    cbn [run after fold_left length repeat existsb strobes map].
    rewrite elements_cons, emitted_cons. unfold advancing. rewrite Hv.
    cbn [andb]. fold (after (elaborate s i) ins).
    fold (strobes (run (elaborate s i) ins)).
    destruct (in_next i) eqn:Hn.
    + rewrite (streaming_advances s i Hf Hv Hn).
      set (s1 := Regs _ _ _ _ _ _ _ _ _ _ _ _).
      destruct (IH s1) as (E & S' & C & I & St & La);
        [ unfold s1; repeat split; cbn; auto using trunc8_idem | exact Ha' | ].
      cbn [forwarded]. cbn in E |- *.
      rewrite Hb, Hl, Hc, Hi, E, C, I, St, La, !orb_assoc.
      repeat (split; [exact S' || reflexivity|]). reflexivity.
    + rewrite (streaming_waits s i Hf Hv Hn).
      set (s1 := Regs _ _ _ _ _ _ _ _ _ _ _ _).
      destruct (IH s1) as (E & S' & C & I & St & La);
        [ unfold s1; repeat split; cbn; auto | exact Ha' | ].
      cbn in E |- *.
      rewrite Hl, Hc, Hi, E, C, I, St, La, !orb_assoc.
      repeat (split; [exact S' || reflexivity|]). reflexivity.
Qed.

Lemma no_elements_no_advance (ins : list ports) :
  elements ins = [] -> no_advance ins.
Proof.
  induction ins as [|i ins IH]; intros H; [constructor|].
  rewrite elements_cons in H. destruct (advancing i) eqn:Hi; [discriminate|].
  constructor; [exact Hi | exact (IH H)].
Qed.

(** From idle to the middle of a packet: the same balance of forwarded and
    buffered elements, with the accumulators counting only the edges after
    the capture of the first byte. *)
Lemma packet_open (ins : list ports) (s : regs) :
  fsm s = WAIT_FOR_FIRST_BYTE -> held_active ins -> elements ins <> [] ->
  forwarded true (elements ins)
    = emitted (run s ins)
      ++ [Element (buffered_byte (after s ins)) (is_first_byte (after s ins))
                  false]
  /\ streaming (after s ins)
  /\ buffered_complete (after s ins)
     = existsb complete_in (after_first_advance ins)
  /\ buffered_invalid (after s ins)
     = existsb invalid_in (after_first_advance ins)
  /\ strobes (run s ins) = repeat (false, false) (length ins)
  /\ map last (run s ins) = repeat false (length ins).
Proof.
  revert s. induction ins as [|i ins IH]; intros s Hs Ha Hne; [now elim Hne|].
  inversion Ha as [|? ? Hv Ha']; subst.
  cbn [run after fold_left length repeat strobes map after_first_advance].
  fold (after (elaborate s i) ins). fold (strobes (run (elaborate s i) ins)).
  rewrite elements_cons, emitted_cons in *.
  destruct (advancing i) eqn:Hi.
  - rewrite (idle_captures s i Hs Hi).
    set (s1 := Regs _ _ _ _ _ _ _ _ _ _ _ _).
    destruct (@streaming_run ins s1) as (E & S' & C & I & St & La);
      [ unfold s1; repeat split; cbn; auto using trunc8_idem | exact Ha' | ].
    cbn in E, C, I |- *. rewrite E, C, I, St, La.
    repeat (split; [exact S' || reflexivity|]). reflexivity.
  - rewrite (idle_stays s i Hs Hi).
    set (s1 := Regs _ _ _ _ _ _ _ _ _ _ _ _).
    destruct (IH s1) as (E & S' & C & I & St & La);
      [ reflexivity | exact Ha' | exact Hne | ].
    cbn. rewrite E, C, I, St, La.
    repeat (split; [exact S' || reflexivity|]). reflexivity.
Qed.

(** A packet seen from idle up to any point after its first advance: the
    elements before the most recent one have gone out, the most recent one is
    in the buffer, and closing takes two edges. *)
Lemma packet_summary (s : regs) (ins : list ports) (es : list Z) (e : Z)
      (fin d : ports) :
  fsm s = WAIT_FOR_FIRST_BYTE -> held_active ins -> elements ins = es ++ [e] ->
  in_valid fin = false ->
  emitted (run s ins) = forwarded true es
  /\ strobes (run s ins) = repeat (false, false) (length ins)
  /\ map last (run s ins) = repeat false (length ins)
  /\ streaming (after s ins)
  /\ buffered_byte (after s ins) = e
  /\ is_first_byte (after s ins) = alone es
  /\ elaborate (after s ins) fin
     = closing_regs e (alone es) (sticky_complete ins fin)
                    (sticky_invalid ins fin)
  /\ elaborate (elaborate (after s ins) fin) d
     = drained_regs e (alone es) (sticky_complete ins fin)
                    (sticky_invalid ins fin).
Proof.
  intros Hs Ha He Hfin.
  destruct (@packet_open ins s Hs Ha) as (E & S' & C & I & St & La).
  { rewrite He. now destruct es. }
  rewrite He, forwarded_snoc in E. apply app_inj_tail in E.
  destruct E as [E1 E2]. injection E2 as Eb Ef. cbn [andb] in Ef.
  assert (Hcl : elaborate (after s ins) fin
                = closing_regs e (alone es) (sticky_complete ins fin)
                               (sticky_invalid ins fin)).
  { destruct S' as (Hf & Hl & Hc & Hi & Hb).
    rewrite (streaming_closes _ fin Hf Hfin).
    unfold closing_regs, sticky_complete, sticky_invalid.
    rewrite !existsb_app. cbn [existsb]. rewrite !orb_false_r.
    now rewrite Hb, Hc, Hi, C, I, <- Eb, <- Ef. }
  repeat (split; [solve [auto] |]).
  rewrite Hcl. reflexivity.
Qed.

(** After the closing edge: one edge presents the accumulators whatever the
    ports carry, then the machine is quiet as long as no advance comes. *)
Lemma closed_tail (e : Z) (f sc si : bool) (d : ports) (rest : list ports) :
  no_advance rest ->
  run (closing_regs e f sc si) (d :: rest)
    = drained_regs e f sc si :: run (drained_regs e f sc si) rest
  /\ Forall quiet (run (drained_regs e f sc si) rest).
Proof.
  intros Hq. split; [reflexivity|].
  now apply idle_run.
Qed.

(** A whole packet followed by any number of edges without an advance. *)
Lemma whole_packet (s : regs) (ins : list ports) (es : list Z) (e : Z)
      (fin : ports) (tail : list ports) :
  fsm s = WAIT_FOR_FIRST_BYTE -> held_active ins -> elements ins = es ++ [e] ->
  in_valid fin = false -> no_advance tail ->
  emitted (run s (ins ++ fin :: tail)) = framed true (es ++ [e])
  /\ map last (run s (ins ++ fin :: tail))
     = repeat false (length ins) ++ true :: repeat false (length tail)
  /\ strobes (run s (ins ++ fin :: tail))
     = repeat (false, false) (length ins + 1)
       ++ match tail with
          | [] => []
          | _ :: rest => (sticky_complete ins fin, sticky_invalid ins fin)
                         :: repeat (false, false) (length rest)
          end.
Proof.
  intros Hs Ha He Hfin Hq.
  destruct (@packet_summary s ins es e fin fin Hs Ha He Hfin)
    as (E & St & La & _ & _ & _ & Hcl & _).
  rewrite run_app, emitted_app, map_app, strobes_app, E, St, La.
  cbn [run]. rewrite Hcl, framed_snoc, repeat_app, <- !app_assoc.
  destruct tail as [|d rest].
  - cbn. repeat split.
  - inversion Hq as [|? ? _ Hq']; subst.
    destruct (closed_tail e (alone es) (sticky_complete ins fin)
                (sticky_invalid ins fin) d Hq') as [Hr Hquiet].
    rewrite Hr. apply quiet_emits_nothing in Hquiet.
    destruct Hquiet as (Qe & Qs & Ql). rewrite run_length in Qs, Ql.
    rewrite !emitted_cons. cbn [map strobes]. fold (strobes).
    cbn [out_next closing_regs drained_regs out_payload first last
         complete_out invalid_out repeat length app].
    unfold strobes in *. rewrite Qe, Qs, Ql. repeat split.
Qed.

(** While the packet is open the output is one advance behind the input. *)
Lemma one_behind (s : regs) (pre : list ports) :
  fsm s = WAIT_FOR_FIRST_BYTE -> held_active pre ->
  emitted (run s pre) = forwarded true (removelast (elements pre)).
Proof.
  intros Hs Ha. destruct (elements pre) as [|x xs] eqn:He.
  - apply no_elements_no_advance in He.
    destruct (@idle_run pre s Hs He) as [Hq _].
    now apply quiet_emits_nothing in Hq.
  - destruct (@exists_last _ (x :: xs)) as (es & e & Hes); [discriminate|].
    rewrite Hes in *. rewrite removelast_last.
    now destruct (@packet_summary s pre es e inactive inactive Hs Ha He eq_refl).
Qed.

Lemma held_active_app (a b : list ports) :
  held_active (a ++ b) -> held_active a /\ held_active b.
Proof. apply Forall_app. Qed.

(* ================================================================== *)
(** ** Whole packets *)

(** C1: a packet of N >= 1 elements, fed with the input held active and one
    advance per element and then the input going inactive, comes out as
    exactly N elements; the k-th one carries the k-th input payload, [first]
    is set on the first one only and [last] on the last one only; each element
    goes out one advance event after its own (after any prefix of the packet
    all elements but the most recent have gone out), the last one on the edge
    that sees the input inactive. *)
Theorem C1_packet_framing (s : regs) (ins : list ports) (fin : ports)
        (tail : list ports) :
  fsm s = WAIT_FOR_FIRST_BYTE -> held_active ins -> elements ins <> [] ->
  in_valid fin = false -> no_advance tail ->
  let N := length (elements ins) in
  let out := emitted (run s (ins ++ fin :: tail)) in
  length out = N
  /\ (forall k, (k < N)%nat ->
        nth_error out k
        = Some (Element (nth k (elements ins) 0) (k =? 0)%nat (S k =? N)%nat))
  /\ (forall pre post, ins = pre ++ post ->
        emitted (run s pre) = forwarded true (removelast (elements pre)))
  /\ emitted (run s (ins ++ [fin])) = out.
Proof.
  intros Hs Ha Hne Hfin Hq N out.
  destruct (exists_last Hne) as (es & e & He).
  destruct (@whole_packet s ins es e fin tail Hs Ha He Hfin Hq) as (E & _).
  destruct (@whole_packet s ins es e fin [] Hs Ha He Hfin (Forall_nil _))
    as (E0 & _).
  subst N out. rewrite E, E0, <- He.
  split; [apply framed_length|].
  split; [intros k Hk; now rewrite framed_nth|].
  split; [|reflexivity].
  intros pre post ->. apply held_active_app in Ha.
  now apply one_behind.
Qed.

Lemma C1_packet_framing_witness :
  (fsm reset = WAIT_FOR_FIRST_BYTE /\ held_active sample_packet
   /\ elements sample_packet <> [] /\ in_valid inactive = false
   /\ no_advance [inactive; inactive])
  /\ length (emitted (run reset (sample_packet ++ inactive :: [inactive; inactive])))
     = 3%nat.
Proof.
  assert (H1 : held_active sample_packet) by (repeat constructor).
  assert (H2 : elements sample_packet <> []) by (vm_compute; discriminate).
  assert (H3 : no_advance [inactive; inactive]) by (repeat constructor).
  split; [repeat split; assumption|].
  exact (proj1 (@C1_packet_framing reset sample_packet inactive
                  [inactive; inactive] eq_refl H1 H2 eq_refl H3)).
Defined.

(** C5: a packet of a single element comes out as one element with both
    [first] and [last] set. *)
Theorem C5_single_element (s : regs) (ins : list ports) (e : Z) (fin : ports)
        (tail : list ports) :
  fsm s = WAIT_FOR_FIRST_BYTE -> held_active ins -> elements ins = [e] ->
  in_valid fin = false -> no_advance tail ->
  emitted (run s (ins ++ fin :: tail)) = [Element e true true].
Proof.
  intros Hs Ha He Hfin Hq.
  now destruct (@whole_packet s ins [] e fin tail Hs Ha He Hfin Hq).
Qed.

Lemma C5_single_element_witness :
  (fsm reset = WAIT_FOR_FIRST_BYTE /\ held_active [gap; data 0x5A; gap]
   /\ elements [gap; data 0x5A; gap] = [0x5A] /\ in_valid inactive = false
   /\ no_advance [inactive])
  /\ emitted (run reset ([gap; data 0x5A; gap] ++ inactive :: [inactive]))
     = [Element 0x5A true true].
Proof.
  assert (H1 : held_active [gap; data 0x5A; gap]) by (repeat constructor).
  assert (H3 : no_advance [inactive]) by (repeat constructor).
  split; [repeat split; assumption|].
  exact (@C5_single_element reset [gap; data 0x5A; gap] 0x5A inactive
           [inactive] eq_refl H1 eq_refl eq_refl H3).
Defined.

(** C4: while a packet is open the processed stream is exactly one advance
    behind the unprocessed one: of the elements received so far all but the
    most recent have gone out, none flagged [last], and the most recent one
    sits in the one-byte buffer with its first-byte flag; when the input goes
    inactive the buffered element goes out on that edge, and exactly one more
    edge, which sends nothing, brings the machine back to idle. *)
Theorem C4_one_advance_behind (s : regs) (pre : list ports) (es : list Z)
        (e : Z) (fin d : ports) :
  fsm s = WAIT_FOR_FIRST_BYTE -> held_active pre -> elements pre = es ++ [e] ->
  in_valid fin = false ->
  (emitted (run s pre) = forwarded true es
   /\ length (emitted (run s pre)) + 1 = length (elements pre))%nat
  /\ (fsm (after s pre) = RECEIVE_AND_TRANSMIT
      /\ buffered_byte (after s pre) = e
      /\ is_first_byte (after s pre) = alone es)
  /\ (emitted (run s (pre ++ [fin]))
        = forwarded true es ++ [Element e (alone es) true]
      /\ fsm (after s (pre ++ [fin])) = OUTPUT_STROBES)
  /\ (emitted (run s (pre ++ [fin; d])) = emitted (run s (pre ++ [fin]))
      /\ fsm (after s (pre ++ [fin; d])) = WAIT_FOR_FIRST_BYTE).
Proof.
  intros Hs Ha He Hfin.
  destruct (@packet_summary s pre es e fin d Hs Ha He Hfin)
    as (E & _ & _ & St & Hb & Hf & Hcl & Hdr).
  split; [split; [exact E|]|].
  { rewrite E, He, forwarded_length, length_app. reflexivity. }
  split; [repeat split; solve [apply St | assumption]|].
  rewrite !run_app, !after_app, !emitted_app, E.
  cbn [run after fold_left]. rewrite Hdr, Hcl. repeat split.
Qed.

Lemma C4_one_advance_behind_witness :
  (fsm reset = WAIT_FOR_FIRST_BYTE /\ held_active sample_packet
   /\ elements sample_packet = [0x11; 0x22] ++ [0x33]
   /\ in_valid inactive = false)
  /\ emitted (run reset sample_packet)
     = [Element 0x11 true false; Element 0x22 false false]
  /\ buffered_byte (after reset sample_packet) = 0x33.
Proof.
  assert (H1 : held_active sample_packet) by (repeat constructor).
  split; [repeat split; assumption|].
  destruct (@C4_one_advance_behind reset sample_packet [0x11; 0x22] 0x33
              inactive inactive eq_refl H1 eq_refl eq_refl)
    as ((E & _) & (_ & B & _) & _).
  split; [exact E | exact B].
Defined.

(** C7: a zero-length packet, the input raised and dropped (or simply idle)
    with no advance while it is active, leaves the machine in its idle state
    after every edge with the stream inactive, no advance on the output,
    [first] and [last] low and no status strobe; nothing is emitted. *)
Theorem C7_zero_length_packet (s : regs) (ins : list ports) :
  fsm s = WAIT_FOR_FIRST_BYTE -> no_advance ins ->
  Forall (fun s' => fsm s' = WAIT_FOR_FIRST_BYTE /\ out_valid s' = false
                    /\ out_next s' = false /\ first s' = false
                    /\ last s' = false /\ complete_out s' = false
                    /\ invalid_out s' = false) (run s ins)
  /\ emitted (run s ins) = [].
Proof.
  intros Hs Hq. destruct (@idle_run ins s Hs Hq) as [H _].
  split; [exact H | now apply quiet_emits_nothing in H].
Qed.

Lemma C7_zero_length_packet_witness :
  (fsm reset = WAIT_FOR_FIRST_BYTE /\ no_advance [gap; gap; inactive; inactive])
  /\ emitted (run reset [gap; gap; inactive; inactive]) = [].
Proof.
  assert (H : no_advance [gap; gap; inactive; inactive])
    by (repeat constructor).
  split; [split; [reflexivity | exact H]|].
  exact (proj2 (@C7_zero_length_packet reset _ eq_refl H)).
Defined.

Lemma strobes_low (tr : list regs) (n : nat) :
  strobes tr = repeat (false, false) n ->
  Forall (fun s => complete_out s = false /\ invalid_out s = false) tr.
Proof.
  revert n. induction tr as [|s tr IH]; intros n H; [constructor|].
  destruct n as [|n]; cbn in H; [discriminate|].
  injection H as Hc Hi Htr. constructor; [split; assumption|].
  exact (IH n Htr).
Qed.

Lemma no_advance_inactive (k : nat) : no_advance (repeat inactive k).
Proof. induction k; cbn; constructor; [reflexivity | assumption]. Qed.

(** [test_boundary_detection]: the register values the test of the source
    asserts, edge by edge: nothing after the first byte is captured, 0xAA
    flagged [first] after the second edge, 0xBB unflagged after the third,
    0xDD flagged [last] after the edge that sees the stream no longer
    valid. *)
Lemma test_boundary_detection :
  let ins := [data 0xAA; data 0xBB; data 0xCC; data 0xDD; inactive; inactive] in
  let seen := fun n =>
    let s := after reset (firstn n ins) in
    (out_valid s, out_next s, out_payload s, first s, last s) in
  seen 0%nat = (false, false, 0, false, false)
  /\ seen 1%nat = (false, false, 0, false, false)
  /\ seen 2%nat = (true, true, 0xAA, true, false)
  /\ seen 3%nat = (true, true, 0xBB, false, false)
  /\ seen 5%nat = (true, true, 0xDD, false, true).
Proof. repeat split. Qed.

(** C2: out of reset, the bytes 0xAA, 0xBB, 0xCC, 0xDD on four consecutive
    edges with the input active and advancing, then the input inactive with
    no status input, for any number of further edges: the processed stream
    carries 0xAA (first), 0xBB, 0xCC, 0xDD (last), one element per output
    advance, and neither status output is ever high. *)
Theorem C2_four_byte_scenario (k : nat) :
  let ins := [data 0xAA; data 0xBB; data 0xCC; data 0xDD]
             ++ repeat inactive (S k) in
  emitted (run reset ins)
  = [Element 0xAA true false; Element 0xBB false false;
     Element 0xCC false false; Element 0xDD false true]
  /\ Forall (fun s => complete_out s = false /\ invalid_out s = false)
            (run reset ins).
Proof.
  intros ins. subst ins. cbn [repeat].
  destruct (@whole_packet reset [data 0xAA; data 0xBB; data 0xCC; data 0xDD]
              [0xAA; 0xBB; 0xCC] 0xDD inactive (repeat inactive k))
    as (E & _ & St);
    [ reflexivity | repeat constructor | reflexivity | reflexivity
    | apply no_advance_inactive | ].
  split; [exact E|].
  apply strobes_low with (n := (4 + 1 + k)%nat).
  rewrite St, repeat_app. f_equal.
  destruct k; reflexivity || (cbn; now rewrite repeat_length).
Qed.

(** A whole packet and the edge after its last element, whatever the ports
    carry on that edge. *)
Lemma packet_drained (s : regs) (ins : list ports) (es : list Z) (e : Z)
      (fin d : ports) :
  fsm s = WAIT_FOR_FIRST_BYTE -> held_active ins -> elements ins = es ++ [e] ->
  in_valid fin = false ->
  emitted (run s (ins ++ [fin; d])) = framed true (es ++ [e])
  /\ strobes (run s (ins ++ [fin; d]))
     = repeat (false, false) (length ins + 1)
       ++ [(sticky_complete ins fin, sticky_invalid ins fin)]
  /\ after s (ins ++ [fin]) 
     = closing_regs e (alone es) (sticky_complete ins fin)
                    (sticky_invalid ins fin)
  /\ after s (ins ++ [fin; d])
     = drained_regs e (alone es) (sticky_complete ins fin)
                    (sticky_invalid ins fin).
Proof.
  intros Hs Ha He Hfin.
  destruct (@packet_summary s ins es e fin d Hs Ha He Hfin)
    as (E & St & _ & _ & _ & _ & Hcl & Hdr).
  rewrite !run_app, !after_app, emitted_app, strobes_app, E, St.
  cbn [run after fold_left]. rewrite Hdr, Hcl, framed_snoc, repeat_app.
  rewrite <- app_assoc. repeat split.
Qed.

(** C10: the processed stream's [valid] is high on the edge that sends the
    last element, stays high over the following edge, on which the strobe
    state presents the status outputs and the machine returns to idle, and
    goes low on the edge after that; the strobe state never changes it and,
    once high, only an edge taken in the idle state brings it low. *)
Theorem C10_valid_held_through_strobes (s : regs) (ins : list ports)
        (fin d nxt : ports) :
  fsm s = WAIT_FOR_FIRST_BYTE -> held_active ins -> elements ins <> [] ->
  in_valid fin = false ->
  let s_last := after s (ins ++ [fin]) in
  let s_strobe := after s (ins ++ [fin; d]) in
  let s_idle := after s (ins ++ [fin; d; nxt]) in
  (out_next s_last = true /\ last s_last = true /\ out_valid s_last = true
   /\ fsm s_last = OUTPUT_STROBES)
  /\ (out_valid s_strobe = true /\ fsm s_strobe = WAIT_FOR_FIRST_BYTE)
  /\ out_valid s_idle = false
  /\ (forall r i, fsm r = OUTPUT_STROBES ->
                  out_valid (elaborate r i) = out_valid r)
  /\ (forall r i, out_valid r = true -> out_valid (elaborate r i) = false ->
                  fsm r = WAIT_FOR_FIRST_BYTE).
Proof.
  intros Hs Ha Hne Hfin s_last s_strobe s_idle.
  destruct (exists_last Hne) as (es & e & He).
  destruct (@packet_drained s ins es e fin d Hs Ha He Hfin)
    as (_ & _ & Hcl & Hdr).
  assert (Hidle : out_valid s_idle = false).
  { subst s_idle. change [fin; d; nxt] with ([fin; d] ++ [nxt]).
    rewrite app_assoc, after_app, Hdr. cbn [after fold_left].
    unfold elaborate. cbn. now destruct (in_valid nxt && in_next nxt). }
  subst s_last s_strobe. rewrite Hcl, Hdr.
  do 2 (split; [repeat split|]).
  split; [|split].
  - exact Hidle.
  - intros r i Hr. now rewrite strobes_drain.
  - intros r i Hv Hlow. destruct (fsm r) eqn:Hr; [reflexivity| |].
    + exfalso. revert Hlow. unfold elaborate. rewrite Hr.
      destruct (in_valid i && in_next i), (negb (in_valid i)); discriminate.
    + rewrite strobes_drain, Hv in Hlow by exact Hr. discriminate.
Qed.

Lemma C10_valid_held_through_strobes_witness :
  (fsm reset = WAIT_FOR_FIRST_BYTE /\ held_active sample_packet
   /\ elements sample_packet <> [] /\ in_valid inactive = false)
  /\ out_valid (after reset (sample_packet ++ [inactive; inactive])) = true
  /\ out_valid (after reset (sample_packet ++ [inactive; inactive; inactive]))
     = false.
Proof.
  assert (H1 : held_active sample_packet) by (repeat constructor).
  assert (H2 : elements sample_packet <> []) by (vm_compute; discriminate).
  split; [repeat split; assumption|].
  destruct (@C10_valid_held_through_strobes reset sample_packet inactive
              inactive inactive eq_refl H1 H2 eq_refl)
    as (_ & (V & _) & I & _).
  split; [exact V | exact I].
Defined.

(** ** Status strobes *)

(** C3, as stated, fails: a status input raised on the edge that carries the
    packet's first advance is raised during the packet's reception, but that
    edge is taken in the idle state, which clears the accumulators; neither
    status output is high after any edge of the run. *)
Lemma C3_counterexample :
  let ins := [data_with 0x11 true true] in
  let tr := run reset (ins ++ [inactive; inactive; inactive]) in
  held_active ins /\ elements ins = [0x11]
  /\ existsb complete_in ins = true /\ existsb invalid_in ins = true
  /\ map last tr = [false; true; false; false]
  /\ strobes tr = [(false, false); (false, false); (false, false);
                   (false, false)]
  /\ ~ (existsb complete_in ins = true
        <-> nth (length ins + 1) (map complete_out tr) false = true).
Proof.
  cbv zeta. split; [repeat constructor|].
  do 5 (split; [reflexivity|]).
  intros [H _]. specialize (H eq_refl). discriminate H.
Qed.

(** C3, amended: for every packet, [last] is high after exactly one edge, the
    one that sees the input inactive; [complete_out] (respectively
    [invalid_out]) is high after the next edge, and after no other, if and
    only if [complete_in] (respectively [invalid_in]) was high on at least one
    edge after the one carrying the packet's first advance, up to and
    including the edge that sees the input inactive.  With no status input
    on those edges neither output is ever high. *)
Theorem C3_strobes_after_last (s : regs) (ins : list ports) (fin d : ports)
        (rest : list ports) :
  fsm s = WAIT_FOR_FIRST_BYTE -> held_active ins -> elements ins <> [] ->
  in_valid fin = false -> no_advance (d :: rest) ->
  let tr := run s (ins ++ fin :: d :: rest) in
  map last tr
  = repeat false (length ins) ++ true :: repeat false (S (length rest))
  /\ strobes tr
     = repeat (false, false) (length ins + 1)
       ++ (existsb complete_in (after_first_advance ins ++ [fin]),
           existsb invalid_in (after_first_advance ins ++ [fin]))
          :: repeat (false, false) (length rest).
Proof.
  intros Hs Ha Hne Hfin Hq tr.
  destruct (exists_last Hne) as (es & e & He).
  destruct (@whole_packet s ins es e fin (d :: rest) Hs Ha He Hfin Hq)
    as (_ & La & St).
  split; [exact La | exact St].
Qed.

Lemma C3_strobes_after_last_witness :
  (fsm reset = WAIT_FOR_FIRST_BYTE /\ held_active sample_packet
   /\ elements sample_packet <> [] /\ in_valid inactive = false
   /\ no_advance [inactive; inactive])
  /\ strobes (run reset (sample_packet ++ inactive :: inactive :: [inactive]))
     = [(false, false); (false, false); (false, false); (false, false);
        (false, false); (true, true); (false, false)].
Proof.
  assert (H1 : held_active sample_packet) by (repeat constructor).
  assert (H2 : elements sample_packet <> []) by (vm_compute; discriminate).
  assert (H3 : no_advance [inactive; inactive]) by (repeat constructor).
  split; [repeat split; assumption|].
  exact (proj2 (@C3_strobes_after_last reset sample_packet inactive inactive
                  [inactive] eq_refl H1 H2 eq_refl H3)).
Defined.

(** C6: two packets back to back, the first advance of the second arriving
    on the edge right after the one on which the first packet's strobes are
    presented.  Each packet comes out framed on its own; each pair of strobes
    reflects the status inputs of its own packet only; the accumulators are
    both clear after the edge that captures the second packet's first byte;
    and the second packet's outputs are those of the same packet fed to a
    machine fresh out of reset. *)
Theorem C6_back_to_back (s : regs) (ins1 : list ports) (fin1 d1 : ports)
        (a2 : ports) (ins2 : list ports) (fin2 d2 : ports) :
  fsm s = WAIT_FOR_FIRST_BYTE ->
  held_active ins1 -> elements ins1 <> [] -> in_valid fin1 = false ->
  advancing a2 = true -> held_active ins2 -> in_valid fin2 = false ->
  let p1 := ins1 ++ [fin1; d1] in
  let p2 := (a2 :: ins2) ++ [fin2; d2] in
  emitted (run s (p1 ++ p2))
  = framed true (elements ins1) ++ framed true (elements (a2 :: ins2))
  /\ strobes (run s (p1 ++ p2))
     = (repeat (false, false) (length ins1 + 1)
        ++ [(sticky_complete ins1 fin1, sticky_invalid ins1 fin1)])
       ++ (repeat (false, false) (length (a2 :: ins2) + 1)
           ++ [(existsb complete_in (ins2 ++ [fin2]),
                existsb invalid_in (ins2 ++ [fin2]))])
  /\ (buffered_complete (after s p1) = sticky_complete ins1 fin1
      /\ buffered_invalid (after s p1) = sticky_invalid ins1 fin1
      /\ buffered_complete (after s (p1 ++ [a2])) = false
      /\ buffered_invalid (after s (p1 ++ [a2])) = false)
  /\ (emitted (run (after s p1) p2) = emitted (run reset p2)
      /\ strobes (run (after s p1) p2) = strobes (run reset p2)).
Proof.
  intros Hs Ha1 Hne1 Hfin1 Hadv Ha2 Hfin2 p1 p2.
  destruct (exists_last Hne1) as (es1 & e1 & He1).
  destruct (@packet_drained s ins1 es1 e1 fin1 d1 Hs Ha1 He1 Hfin1)
    as (E1 & St1 & _ & Hdr1).
  assert (Hv2 : in_valid a2 = true).
  { unfold advancing in Hadv. now destruct (in_valid a2). }
  assert (Ha2' : held_active (a2 :: ins2)) by (constructor; assumption).
  assert (Hne2 : elements (a2 :: ins2) <> []).
  { rewrite elements_cons, Hadv. discriminate. }
  destruct (exists_last Hne2) as (es2 & e2 & He2).
  assert (P2 : forall r, fsm r = WAIT_FOR_FIRST_BYTE ->
             emitted (run r p2) = framed true (elements (a2 :: ins2))
             /\ strobes (run r p2)
                = repeat (false, false) (length (a2 :: ins2) + 1)
                  ++ [(existsb complete_in (ins2 ++ [fin2]),
                       existsb invalid_in (ins2 ++ [fin2]))]).
  { intros r Hr.
    destruct (@packet_drained r (a2 :: ins2) es2 e2 fin2 d2 Hr Ha2' He2 Hfin2)
      as (E2 & St2 & _).
    unfold sticky_complete, sticky_invalid in St2.
    cbn [after_first_advance] in St2. rewrite Hadv in St2.
    rewrite He2. split; [exact E2 | exact St2]. }
  fold p1 in E1, St1, Hdr1.
  destruct (P2 (after s p1)) as [E2 St2]; [now rewrite Hdr1|].
  destruct (P2 reset eq_refl) as [E0 St0].
  rewrite run_app, emitted_app, strobes_app, E1, St1, E2, St2, E0, St0, <- He1.
  do 2 (split; [reflexivity|]).
  split; [|split; reflexivity].
  rewrite after_app, Hdr1. cbn [after fold_left].
  rewrite (@idle_captures (drained_regs _ _ _ _) a2 eq_refl Hadv).
  repeat split.
Qed.

Lemma C6_back_to_back_witness :
  (fsm reset = WAIT_FOR_FIRST_BYTE
   /\ held_active sample_packet /\ elements sample_packet <> []
   /\ in_valid (inactive_with true false) = false
   /\ advancing (data 0x44) = true /\ held_active [data 0x55]
   /\ in_valid inactive = false)
  /\ strobes (run reset ((sample_packet ++ [inactive_with true false; inactive])
                         ++ ((data 0x44 :: [data 0x55])
                             ++ [inactive; inactive])))
     = [(false, false); (false, false); (false, false); (false, false);
        (false, false); (true, true);
        (false, false); (false, false); (false, false); (false, false)].
Proof.
  assert (H1 : held_active sample_packet) by (repeat constructor).
  assert (H2 : elements sample_packet <> []) by (vm_compute; discriminate).
  assert (H3 : held_active [data 0x55]) by (repeat constructor).
  split; [repeat split; assumption|].
  destruct (@C6_back_to_back reset sample_packet (inactive_with true false)
              inactive (data 0x44) [data 0x55] inactive inactive
              eq_refl H1 H2 eq_refl eq_refl H3 eq_refl)
    as (_ & St & _).
  exact St.
Defined.

(** ** Strobes and payload in arbitrary runs *)

Lemma consistent_step (s : regs) (i : ports) :
  consistent s -> consistent (elaborate s i).
Proof.
  destruct s as [st ? ? ? ? ? co io ? ? ? ?]. unfold consistent, strobing.
  destruct st; cbn; intros H.
  - unfold elaborate; cbn. now destruct (in_valid i && in_next i).
  - unfold elaborate; cbn.
    destruct (in_valid i), (in_next i); cbn; auto.
  - reflexivity.
Qed.

Lemma consistent_after (ins : list ports) (s : regs) :
  consistent s -> consistent (after s ins).
Proof.
  revert s. induction ins as [|i ins IH]; intros s H; [exact H|].
  cbn. apply IH. now apply consistent_step.
Qed.

(** A strobe can only come out of the strobe state, which is entered on the
    edge that sends the last element and begins no packet. *)
Lemma strobe_origin (s : regs) (i : ports) :
  consistent s -> strobing (elaborate s i) = true ->
  (out_next s = true /\ last s = true)
  /\ begins_packet s i = false
  /\ fsm (elaborate s i) = WAIT_FOR_FIRST_BYTE
  /\ out_next (elaborate s i) = false.
Proof.
  destruct s as [st ? ? ? ? ? co io ? ? ? ?].
  unfold consistent, strobing, begins_packet.
  destruct st; cbn; intros H.
  - unfold elaborate; cbn. destruct (in_valid i && in_next i); discriminate.
  - unfold elaborate; cbn.
    destruct (in_valid i), (in_next i); cbn; intros H'; congruence.
  - intros _. destruct H as (? & ? & _). repeat split; assumption.
Qed.

Lemma packets_app (k : nat) (s : regs) (a b : list ports) :
  packets k s (a ++ b) = packets (packets k s a) (after s a) b.
Proof.
  revert k s. induction a as [|i a IH]; intros k s; cbn; [reflexivity|].
  apply IH.
Qed.

Lemma numbered_mono (ins : list ports) (k : nat) (s : regs) :
  Forall (fun ks => (k <= fst ks)%nat) (run_numbered k s ins).
Proof.
  revert k s. induction ins as [|i ins IH]; intros k s; cbn; [constructor|].
  constructor.
  - cbn. destruct (begins_packet s i); lia.
  - eapply Forall_impl; [|apply IH]. cbn. intros ks H.
    destruct (begins_packet s i); lia.
Qed.

(** From idle, whatever goes out later belongs to a packet begun later. *)
Lemma later_emissions (ins : list ports) (k : nat) (s : regs) :
  fsm s = WAIT_FOR_FIRST_BYTE ->
  Forall (fun ks => out_next (snd ks) = true -> (k < fst ks)%nat)
         (run_numbered k s ins).
Proof.
  revert s. induction ins as [|i ins IH]; intros s Hs; cbn; [constructor|].
  unfold begins_packet. rewrite Hs.
  destruct (advancing i) eqn:Hi.
  - rewrite (idle_captures s i Hs Hi). constructor; [cbn; discriminate|].
    eapply Forall_impl; [|apply numbered_mono]. cbn. intros ks H _. lia.
  - rewrite (idle_stays s i Hs Hi). constructor; [cbn; discriminate|].
    now apply IH.
Qed.

(** C8: in every run out of reset, when a status output is high the output
    advance is low on that edge; the edge before sent an element flagged
    [last], of the same packet; and every element sent on a later edge
    belongs to a packet begun later.  So the strobes of a packet neither
    precede nor coincide with any element of that packet. *)
Theorem C8_strobes_follow_payload (pre post : list ports) :
  let s := after reset pre in
  let k := packets 0 reset pre in
  strobing s = true ->
  out_next s = false
  /\ (exists before i,
        pre = before ++ [i]
        /\ out_next (after reset before) = true
        /\ last (after reset before) = true
        /\ packets 0 reset before = k)
  /\ Forall (fun ks => out_next (snd ks) = true -> (k < fst ks)%nat)
            (run_numbered k s post).
Proof.
  intros s k. subst s k.
  destruct pre as [|x pre'] using rev_ind; [discriminate|]. clear IHpre'.
  rewrite after_app, packets_app. cbn [after fold_left packets].
  intros Hst.
  destruct (@strobe_origin (after reset pre') x) as ((Hn & Hl) & Hb & Hf & Ho);
    [ apply consistent_after; reflexivity | exact Hst | ].
  rewrite Hb. split; [exact Ho|]. split.
  - exists pre', x. repeat split; assumption.
  - now apply later_emissions.
Qed.

Lemma C8_strobes_follow_payload_witness :
  strobing (after reset [data 0x11; inactive_with true false; inactive]) = true
  /\ out_next (after reset [data 0x11; inactive_with true false; inactive])
     = false
  /\ Forall (fun ks => out_next (snd ks) = true -> (1 < fst ks)%nat)
            (run_numbered 1
               (after reset [data 0x11; inactive_with true false; inactive])
               [data 0x22; data 0x33; inactive; inactive]).
Proof.
  split; [reflexivity|].
  destruct (@C8_strobes_follow_payload
              [data 0x11; inactive_with true false; inactive]
              [data 0x22; data 0x33; inactive; inactive] eq_refl)
    as (Hn & _ & Hlater).
  split; [exact Hn | exact Hlater].
Defined.

(* ================================================================== *)
(** ** The bridge of the OUT stream, evaluated *)

Section BridgeEvaluated.

Import String USBOutStreamInterface.
Local Open Scope string_scope.

(** C9: the docstring maps rx_active to [valid], rx_data to [payload] and
  rx_valid to [next]; [bridge_to] reaches for a field [data] of the stream
  record, which has none, so on a receive interface with exactly the three
  documented signals it raises instead of returning the three connections
  (which, written with the documented names, it would), and it returns
  a connection list for no receive interface at all. *)
Theorem C9_bridge_to_raises :
bridge_to (__init__ 8) utmi_rx_example = AttributeError "stream" "data"
/\ documented_bridge (__init__ 8) utmi_rx_example
   = Return [ Assign (Field "stream" "valid" 1) (Field "utmi" "rx_active" 1);
              Assign (Field "stream" "next" 1) (Field "utmi" "rx_valid" 1);
              Assign (Field "stream" "payload" 8) (Field "utmi" "rx_data" 8) ]
/\ (forall utmi_rx l, bridge_to (__init__ 8) utmi_rx <> Return l).
Proof.
split; [reflexivity|]. split; [reflexivity|].
intros utmi_rx l. apply bridge_to_never_returns.
Qed.

End BridgeEvaluated.

(* ================================================================== *)
(** ** Further properties of the boundary detector: arbitrary runs *)

Import BoundaryDetectorRuns.

Lemma well_presented_reset : well_presented reset.
Proof.
  unfold well_presented, strobing. cbn.
  repeat split; intros; discriminate.
Qed.

Lemma well_presented_step (s : regs) (i : ports) :
  well_presented s -> well_presented (elaborate s i).
Proof.
  destruct s as [st ov on op fi la co io bb ifb bc bi].
  unfold well_presented, strobing. cbn.
  intros (Hnv & Hfv & Hla & Hos & Hst).
  destruct st.
  - unfold elaborate; cbn. destruct (in_valid i && in_next i); cbn;
      repeat split; intros; discriminate.
  - assert (Hl : la = false).
    { destruct la; [|reflexivity]. destruct Hla as [Hla _].
      discriminate (Hla eq_refl). }
    assert (Hs : co || io = false).
    { destruct (co || io); [|reflexivity]. destruct (Hst eq_refl) as [F _].
      discriminate F. }
    subst la. unfold elaborate; cbn.
    destruct (in_valid i), (in_next i); cbn; rewrite ?Hs;
      repeat split; intros; (reflexivity || discriminate).
  - destruct (Hos eq_refl) as [-> ->]. cbn.
    repeat split; intros; (reflexivity || discriminate).
Qed.

Lemma well_presented_after (ins : list ports) :
  well_presented (after reset ins).
Proof.
  induction ins as [|i ins IH] using rev_ind; [apply well_presented_reset|].
  rewrite after_app. cbn. now apply well_presented_step.
Qed.

(** In every run out of reset the outputs are coherent after every edge:
    the output advance and [first] are only high with the stream marked
    valid; [last] is high exactly when the machine sits in its strobe state,
    and then an element is being presented; a status output is only high
    with the machine back in idle, the stream still marked valid and no
    element presented. *)
Theorem outputs_coherent (ins : list ports) :
  Forall well_presented (run reset ins).
Proof.
  induction ins as [|i ins IH] using rev_ind; [constructor|].
  rewrite run_app. apply Forall_app. split; [exact IH|].
  cbn. constructor; [|constructor].
  apply well_presented_step, well_presented_after.
Qed.

(** [last] and the status outputs are pulses: in every run out of reset,
    an edge after which [last] is high is followed by an edge after which
    [last] and the output advance are low, and an edge after which a status
    output is high is followed by one after which both are low. *)
Theorem last_and_strobes_are_pulses (pre : list ports) (i : ports) :
  (last (after reset pre) = true ->
   last (after reset (pre ++ [i])) = false
   /\ out_next (after reset (pre ++ [i])) = false)
  /\ (strobing (after reset pre) = true ->
      strobing (after reset (pre ++ [i])) = false).
Proof.
  rewrite after_app. cbn [after fold_left].
  destruct (well_presented_after pre) as (_ & _ & Hla & _ & Hst).
  split.
  - intros Hl. apply Hla in Hl. now rewrite (strobes_drain _ i Hl).
  - intros Hs. destruct (Hst Hs) as (Hf & _).
    unfold elaborate. rewrite Hf. unfold strobing.
    now destruct (in_valid i && in_next i).
Qed.



(** *** Nothing is invented, duplicated or reordered *)

Lemma subsequence_refl {A : Type} (l : list A) : subsequence l l.
Proof. induction l; constructor; assumption. Qed.

Lemma subsequence_length {A : Type} (a b : list A) :
  subsequence a b -> (length a <= length b)%nat.
Proof. induction 1; cbn; lia. Qed.

Lemma elements_tl (ins : list ports) :
  subsequence (elements (tl ins)) (elements ins).
Proof.
  destruct ins as [|i ins]; [constructor|]. cbn [tl].
  rewrite elements_cons. destruct (advancing i).
  - apply sub_skip, subsequence_refl.
  - apply subsequence_refl.
Qed.

Lemma subsequence_trans_tl (a : list Z) (ins : list ports) :
  subsequence a (elements (tl ins)) -> subsequence a (elements ins).
Proof.
  destruct ins as [|i ins]; [exact (fun H => H)|]. cbn [tl].
  rewrite elements_cons. destruct (advancing i); [apply sub_skip | exact (fun H => H)].
Qed.

(** The payloads sent during a run, whatever the state it starts in: they
    are drawn, in order, from the buffered byte (when streaming) and the
    elements still to come (past the sample of the strobe edge, which is
    ignored). *)
Lemma sent_from (ins : list ports) (s : regs) :
  subsequence (map payload (emitted (run s ins)))
    match fsm s with
    | WAIT_FOR_FIRST_BYTE => elements ins
    | RECEIVE_AND_TRANSMIT => trunc8 (buffered_byte s) :: elements ins
    | OUTPUT_STROBES => elements (tl ins)
    end.
Proof.
  revert s. induction ins as [|i ins IH]; intros s; [constructor|].
  cbn [run]. rewrite emitted_cons, elements_cons.
  destruct (fsm s) eqn:Hs.
  - destruct (advancing i) eqn:Hi.
    + rewrite (idle_captures s i Hs Hi). cbn [out_next].
      specialize (IH (Regs RECEIVE_AND_TRANSMIT false false (out_payload s)
                           false false false false (trunc8 (in_payload i))
                           true false false)).
      cbn in IH. now rewrite trunc8_idem in IH.
    + rewrite (idle_stays s i Hs Hi). cbn [out_next].
      exact (IH (Regs WAIT_FOR_FIRST_BYTE false false (out_payload s) false
                      false false false (buffered_byte s) (is_first_byte s)
                      false false)).
  - unfold advancing. destruct (in_valid i) eqn:Hv; [destruct (in_next i) eqn:Hn|];
      cbn [andb].
    + rewrite (streaming_advances s i Hs Hv Hn). cbn [out_next map payload].
      apply sub_take.
      match goal with |- context [run ?s1 ins] => specialize (IH s1) end.
      cbn in IH. now rewrite trunc8_idem in IH.
    + rewrite (streaming_waits s i Hs Hv Hn). cbn [out_next].
      match goal with |- context [run ?s1 ins] => exact (IH s1) end.
    + rewrite (streaming_closes s i Hs Hv). cbn [out_next map payload].
      apply sub_take.
      match goal with |- context [run ?s1 ins] => specialize (IH s1) end.
      cbn in IH. now apply subsequence_trans_tl.
  - rewrite (strobes_drain s i Hs). cbn [out_next tl].
    match goal with |- context [run ?s1 ins] => exact (IH s1) end.
Qed.

(** In every run out of reset, whatever the input does, the payloads on the
    processed stream are a subsequence of the payloads received with an
    advance: no element is invented, sent twice or sent out of order, and
    after any number of edges no more elements have gone out than have come
    in. *)
Theorem nothing_invented (ins : list ports) :
  subsequence (map payload (emitted (run reset ins))) (elements ins)
  /\ (length (emitted (run reset ins)) <= length (elements ins))%nat.
Proof.
  assert (H := sent_from ins reset). cbn in H.
  split; [exact H|].
  apply subsequence_length in H. now rewrite length_map in H.
Qed.

(** *** What depends on what *)

Lemma data_view_step (s s' : regs) (i : ports) :
  data_view s = data_view s' ->
  data_view (elaborate s i) = data_view (elaborate s' (without_status i)).
Proof.
  destruct s as [st ? ? ? ? ? ? ? ? ? ? ?], s' as [st' ? ? ? ? ? ? ? ? ? ? ?].
  unfold data_view. cbn. intros H. injection H as -> -> -> -> -> -> -> ->.
  destruct st'; unfold elaborate; cbn;
    destruct (in_valid i), (in_next i); reflexivity.
Qed.

(** The status inputs have no effect on the data path: with both held low
    instead, the machine goes through the same states and presents the same
    stream, flags and elements, after every edge. *)
Theorem status_inputs_leave_data_alone (s : regs) (ins : list ports) :
  map data_view (run s ins) = map data_view (run s (map without_status ins))
  /\ emitted (run s ins) = emitted (run s (map without_status ins)).
Proof.
  assert (G : forall s s', data_view s = data_view s' ->
              map data_view (run s ins)
              = map data_view (run s' (map without_status ins))).
  { induction ins as [|i ins IH]; intros r r' Hr; [reflexivity|].
    cbn [run map]. pose proof (data_view_step i Hr) as Hstep.
    rewrite Hstep. f_equal. now apply IH. }
  specialize (G s s eq_refl). split; [exact G|].
  revert G. generalize (run s (map without_status ins)).
  generalize (run s ins). clear.
  induction l as [|a l IH]; intros [|b l'] H; try discriminate; [reflexivity|].
  cbn [map] in H. unfold data_view at 1 3 in H.
  injection H as _ _ Hn Hp Hf Hla _ _ Hl.
  now rewrite !emitted_cons, (IH l' Hl), Hn, Hp, Hf, Hla.
Qed.

Lemma control_view_step (s s' : regs) (i : ports) :
  control_view s = control_view s' ->
  control_view (elaborate s i)
  = control_view (elaborate s' (without_payload i)).
Proof.
  destruct s as [st ? ? ? ? ? ? ? ? ? ? ?], s' as [st' ? ? ? ? ? ? ? ? ? ? ?].
  unfold control_view. cbn.
  intros H. injection H as -> -> -> -> -> -> -> -> -> ->.
  destruct st'; unfold elaborate; cbn;
    destruct (in_valid i), (in_next i); reflexivity.
Qed.

(** The payload values have no effect on control: with the payload lines at
    zero instead, the states, the stream's valid and advance, [first], [last]
    and both status outputs are the same after every edge. *)
Theorem payload_leaves_control_alone (s : regs) (ins : list ports) :
  map control_view (run s ins)
  = map control_view (run s (map without_payload ins))
  /\ strobes (run s ins) = strobes (run s (map without_payload ins)).
Proof.
  assert (G : forall s s', control_view s = control_view s' ->
              map control_view (run s ins)
              = map control_view (run s' (map without_payload ins))).
  { induction ins as [|i ins IH]; intros r r' Hr; [reflexivity|].
    cbn [run map]. pose proof (control_view_step i Hr) as Hstep.
    rewrite Hstep. f_equal. now apply IH. }
  specialize (G s s eq_refl). split; [exact G|].
  revert G. generalize (run s (map without_payload ins)).
  generalize (run s ins). clear.
  induction l as [|a l IH]; intros [|b l'] H; try discriminate; [reflexivity|].
  cbn [map] in H. unfold control_view at 1 3 in H.
  injection H as _ _ _ _ _ Hc Hi _ _ _ Hl.
  cbn [map strobes]. fold (strobes l). fold (strobes l').
  now rewrite (IH l' Hl), Hc, Hi.
Qed.

(** *** Packets in sequence *)

(** A packet from idle, or nothing at all when the input was raised and
    dropped with no advance. *)
Lemma packet_or_nothing (s : regs) (ins : list ports) (fin : ports)
      (tail : list ports) :
  fsm s = WAIT_FOR_FIRST_BYTE -> held_active ins -> in_valid fin = false ->
  no_advance tail ->
  emitted (run s (ins ++ fin :: tail)) = framed true (elements ins).
Proof.
  intros Hs Ha Hfin Hq. destruct (elements ins) as [|x xs] eqn:He.
  - apply no_elements_no_advance in He.
    assert (Hall : no_advance (ins ++ fin :: tail)).
    { apply Forall_app. split; [exact He|]. constructor; [|exact Hq].
      unfold advancing. now rewrite Hfin. }
    destruct (@idle_run _ s Hs Hall) as [Hquiet _].
    now apply quiet_emits_nothing in Hquiet.
  - destruct (@exists_last _ (x :: xs)) as (es & e & Hes); [discriminate|].
    rewrite Hes in *.
    now destruct (@whole_packet s ins es e fin tail Hs Ha He Hfin Hq).
Qed.

Lemma elements_filter (ins : list ports) :
  elements (filter advancing ins) = elements ins.
Proof.
  induction ins as [|i ins IH]; [reflexivity|]. cbn [filter].
  destruct (advancing i) eqn:Hi; rewrite ?elements_cons, ?Hi, IH; reflexivity.
Qed.

Lemma held_active_filter (ins : list ports) :
  held_active ins -> held_active (filter advancing ins).
Proof.
  induction 1 as [|i ins Hi _ IH]; [constructor|]. cbn [filter].
  destruct (advancing i); [constructor|]; assumption.
Qed.

(** Pauses do not show: a packet fed with edges on which the input is active
    but does not advance comes out as the same elements, with the same flags,
    as the packet fed with those edges left out. *)
Theorem pauses_are_transparent (s : regs) (ins : list ports) (fin : ports)
        (tail : list ports) :
  fsm s = WAIT_FOR_FIRST_BYTE -> held_active ins -> in_valid fin = false ->
  no_advance tail ->
  emitted (run s (ins ++ fin :: tail))
  = emitted (run s (filter advancing ins ++ fin :: tail)).
Proof.
  intros Hs Ha Hfin Hq.
  rewrite !packet_or_nothing, ?elements_filter;
    auto using held_active_filter.
Qed.

Lemma pauses_are_transparent_witness :
  (fsm reset = WAIT_FOR_FIRST_BYTE /\ held_active sample_packet
   /\ in_valid inactive = false /\ no_advance [inactive])
  /\ emitted (run reset (sample_packet ++ inactive :: [inactive]))
     = emitted (run reset ([data 0x11; data_with 0x22 true false;
                            data_with 0x33 false true]
                           ++ inactive :: [inactive])).
Proof.
  assert (H1 : held_active sample_packet) by (repeat constructor).
  assert (H2 : no_advance [inactive]) by (repeat constructor).
  split; [repeat split; assumption|].
  exact (@pauses_are_transparent reset sample_packet inactive [inactive]
           eq_refl H1 eq_refl H2).
Defined.

(** A packet that begins one edge too early loses its first byte: when the
    first advance of a packet comes on the edge right after the one that
    closed the previous packet, the strobe state ignores it, and the packet
    comes out from its second element on, that one flagged [first]. *)
Theorem advance_on_strobe_edge_is_lost (s : regs) (ins1 : list ports)
        (fin1 a2 : ports) (ins2 : list ports) (fin2 : ports)
        (tail : list ports) :
  fsm s = WAIT_FOR_FIRST_BYTE ->
  held_active ins1 -> elements ins1 <> [] -> in_valid fin1 = false ->
  advancing a2 = true -> held_active ins2 -> in_valid fin2 = false ->
  no_advance tail ->
  emitted (run s ((ins1 ++ [fin1]) ++ (a2 :: ins2) ++ fin2 :: tail))
  = framed true (elements ins1)
    ++ framed true (tl (elements (a2 :: ins2))).
Proof.
  intros Hs Ha1 Hne1 Hfin1 Hadv Ha2 Hfin2 Hq.
  destruct (exists_last Hne1) as (es1 & e1 & He1).
  destruct (@packet_drained s ins1 es1 e1 fin1 a2 Hs Ha1 He1 Hfin1)
    as (E1 & _ & _ & Hdr1).
  replace ((ins1 ++ [fin1]) ++ (a2 :: ins2) ++ fin2 :: tail)
    with ((ins1 ++ [fin1; a2]) ++ ins2 ++ fin2 :: tail)
    by (rewrite <- !app_assoc; reflexivity).
  rewrite run_app, emitted_app, E1, Hdr1, <- He1.
  rewrite packet_or_nothing by (reflexivity || assumption).
  rewrite elements_cons, Hadv. reflexivity.
Qed.

Lemma advance_on_strobe_edge_is_lost_witness :
  (fsm reset = WAIT_FOR_FIRST_BYTE
   /\ held_active [data 0x11] /\ elements [data 0x11] <> []
   /\ in_valid inactive = false
   /\ advancing (data 0x44) = true /\ held_active [data 0x55; data 0x66]
   /\ in_valid inactive = false /\ no_advance [inactive])
  /\ emitted (run reset (([data 0x11] ++ [inactive])
                         ++ (data 0x44 :: [data 0x55; data 0x66])
                         ++ inactive :: [inactive]))
     = [Element 0x11 true true; Element 0x55 true false;
        Element 0x66 false true].
Proof.
  assert (H1 : held_active [data 0x11]) by (repeat constructor).
  assert (H2 : elements [data 0x11] <> []) by (vm_compute; discriminate).
  assert (H3 : held_active [data 0x55; data 0x66]) by (repeat constructor).
  assert (H4 : no_advance [inactive]) by (repeat constructor).
  split; [repeat split; assumption|].
  exact (@advance_on_strobe_edge_is_lost reset [data 0x11] inactive
           (data 0x44) [data 0x55; data 0x66] inactive [inactive]
           eq_refl H1 H2 eq_refl eq_refl H3 eq_refl H4).
Defined.

(** Any number of packets, each followed by the one edge on which its
    strobes are presented: the processed stream carries the packets one
    after the other, each framed on its own; the status outputs carry one
    pair of strobes per packet, computed from that packet's samples alone;
    and the machine is idle again at the end. *)
Theorem any_number_of_packets (pks : list packet) (s : regs) :
  fsm s = WAIT_FOR_FIRST_BYTE -> Forall well_formed pks ->
  emitted (run s (flat_map fed pks)) = flat_map framed_packet pks
  /\ strobes (run s (flat_map fed pks)) = flat_map strobes_of pks
  /\ fsm (after s (flat_map fed pks)) = WAIT_FOR_FIRST_BYTE.
Proof.
  revert s. induction pks as [|p pks IH]; intros s Hs Hwf.
  - repeat split. exact Hs.
  - inversion Hwf as [|? ? (Ha & Hne & Hfin) Hwf']; subst.
    destruct (exists_last Hne) as (es & e & He).
    destruct (@packet_drained s (samples p) es e (closing p) (strobe_edge p)
                Hs Ha He Hfin) as (E & St & _ & Hdr).
    fold (fed p) in E, St, Hdr.
    cbn [flat_map]. rewrite run_app, after_app, emitted_app, strobes_app.
    destruct (IH (after s (fed p))) as (E' & St' & F');
      [now rewrite Hdr | exact Hwf' |].
    rewrite E, St, E', St', F'.
    change (framed_packet p) with (framed true (elements (samples p))).
    rewrite He. repeat split.
Qed.

Lemma any_number_of_packets_witness :
  (fsm reset = WAIT_FOR_FIRST_BYTE
   /\ Forall well_formed
        [Packet sample_packet (inactive_with true false) inactive;
         Packet second_packet inactive (data 0x99);
         Packet [data 0x77] inactive inactive])
  /\ emitted (run reset
                (flat_map fed
                   [Packet sample_packet (inactive_with true false) inactive;
                    Packet second_packet inactive (data 0x99);
                    Packet [data 0x77] inactive inactive]))
     = [Element 0x11 true false; Element 0x22 false false;
        Element 0x33 false true;
        Element 0x44 true false; Element 0x55 false true;
        Element 0x77 true true].
Proof.
  assert (H : Forall well_formed
                [Packet sample_packet (inactive_with true false) inactive;
                 Packet second_packet inactive (data 0x99);
                 Packet [data 0x77] inactive inactive]).
  { repeat constructor; cbn; vm_compute; discriminate. }
  split; [split; [reflexivity | exact H]|].
  exact (proj1 (@any_number_of_packets _ reset eq_refl H)).
Defined.

(* ================================================================== *)
(** ** Further properties of the stream records *)

Section StreamRecords.

Import String USBOutStreamInterface.
Local Open Scope string_scope.


(** The IN bridge returns its connections exactly when the transmit
    interface has [valid], [data] and [ready] and the stream has [valid],
    [payload] and [ready]; they are then three: the stream's [valid] and
    [payload] drive the interface's [valid] and [data], and the interface's
    [ready] drives the stream's.  With any of the six missing it raises. *)
Theorem in_bridge_connects (self utmi_tx : record) (l : list assign) :
  USBInStreamInterface.bridge_to self utmi_tx = Return l
  <-> exists uv ud ur sv sp sr,
        lookup "valid" (fields utmi_tx) = Some uv
        /\ lookup "data" (fields utmi_tx) = Some ud
        /\ lookup "ready" (fields utmi_tx) = Some ur
        /\ lookup "valid" (fields self) = Some sv
        /\ lookup "payload" (fields self) = Some sp
        /\ lookup "ready" (fields self) = Some sr
        /\ l = [ Assign (Field (rec_name utmi_tx) "valid" uv)
                        (Field (rec_name self) "valid" sv);
                 Assign (Field (rec_name utmi_tx) "data" ud)
                        (Field (rec_name self) "payload" sp);
                 Assign (Field (rec_name self) "ready" sr)
                        (Field (rec_name utmi_tx) "ready" ur) ].
Proof.
  unfold USBInStreamInterface.bridge_to, getattr.
  split.
  - destruct (lookup "valid" (fields utmi_tx)) as [uv|]; [|discriminate].
    destruct (lookup "valid" (fields self)) as [sv|]; [|discriminate].
    destruct (lookup "data" (fields utmi_tx)) as [ud|]; [|discriminate].
    destruct (lookup "payload" (fields self)) as [sp|]; [|discriminate].
    destruct (lookup "ready" (fields self)) as [sr|]; [|discriminate].
    destruct (lookup "ready" (fields utmi_tx)) as [ur|]; [|discriminate].
    cbn. intros [= <-]. exists uv, ud, ur, sv, sp, sr. repeat split.
  - intros (uv & ud & ur & sv & sp & sr & -> & -> & -> & -> & -> & -> & ->).
    reflexivity.
Qed.

End StreamRecords.
